(** * LevelDB primitives: Slice, the bytewise Comparator and the Arena

    A shallow embedding of [include/leveldb/slice.h],
    [include/leveldb/comparator.h] and [util/arena.h], followed by the
    properties of these primitives.

    Conventions.
    - A [char] is a [Byte.byte]; [uchar] reads it as an [unsigned char].
    - A pointer is an address ([nat]); the memory is a total map from
      addresses to bytes.  A [Slice] is the pair of a pointer and a size,
      exactly as in the class, so that two slices over different addresses
      can be compared.
    - [size_t] values are naturals.  The only subtraction performed on
      them by the embedded code ([alloc_bytes_remaining_ -= bytes]) sits
      under the guard [bytes <= alloc_bytes_remaining_], so it never wraps.
      The functions modelled from the specification compute on naturals
      too: the specification gives sizes no width.
    - [assert(c)] is a checked precondition: the embedded function returns
      [None] when [c] is false. *)

From Stdlib Require Import Strings.String Strings.Byte.
From Stdlib Require Import List ZArith NArith Lia Bool Arith.
Import ListNotations.

(* ================================================================= *)
(** * Part I: the embedding *)
(* ================================================================= *)

(** ** Bytes, pointers and memory *)

(** [static_cast<unsigned char>(c)] *)
Definition uchar (c : byte) : Z := Z.of_N (Byte.to_N c).

Definition ptr := nat.

Bind Scope nat_scope with ptr.

Definition Memory := ptr -> byte.

(** The [n] bytes stored at [p], [p+1], ..., [p+n-1]. *)
Definition bytes_at (m : Memory) (p : ptr) (n : nat) : list byte :=
  map m (seq p n).

(** A [std::string] is its sequence of bytes. *)
Definition std_string := list byte.

(** The bytes of a string literal. *)
Definition bytes_of (s : String.string) : std_string :=
  String.list_byte_of_string s.

(** [memcmp] from <cstring>.  The C library compares the two ranges as
    unsigned chars; the C standard fixes the sign of the result, that of
    the first differing pair, and leaves its magnitude open.  This is the
    portable reference implementation, which returns the difference of
    that pair. *)
Fixpoint memcmp (m : Memory) (s1 s2 : ptr) (n : nat) : Z :=
  match n with
  | O => 0%Z
  | S n' =>
      if Byte.eqb (m s1) (m s2)
      then memcmp m (S s1) (S s2) n'
      else (uchar (m s1) - uchar (m s2))%Z
  end.

(** A C library conforms when its [memcmp] has, on every input, the sign
    of the reference implementation. *)
Definition memcmp_conforming (f : Memory -> ptr -> ptr -> nat -> Z) : Prop :=
  forall m p q n, Z.sgn (f m p q n) = Z.sgn (memcmp m p q n).

(** [strlen] from <cstring>: the number of bytes before the first NUL.
    The scan is bounded by [fuel]; [None] means no NUL was met within
    [fuel] bytes. *)
Fixpoint strlen (fuel : nat) (m : Memory) (s : ptr) : option nat :=
  match fuel with
  | O => None
  | S fuel' =>
      if Byte.eqb (m s) x00 then Some O
      else option_map S (strlen fuel' m (S s))
  end.

(** ** include/leveldb/slice.h *)

Record Slice : Type := mkSlice { data_ : ptr; size_ : nat }.

(** The bytes a slice refers to: [data_[0]], ..., [data_[size_-1]]. *)
Definition view (m : Memory) (s : Slice) : list byte :=
  bytes_at m (data_ s) (size_ s).

Module SliceOps.

(** [Slice(const char* d, size_t n)] *)
Definition from_data (d : ptr) (n : nat) : Slice := mkSlice d n.

(** [Slice(const char* s) : data_(s), size_(strlen(s))] *)
Definition from_cstr (fuel : nat) (m : Memory) (s : ptr) : option Slice :=
  match strlen fuel m s with
  | Some n => Some (mkSlice s n)
  | None => None
  end.

Definition data (this : Slice) : ptr := data_ this.

Definition size (this : Slice) : nat := size_ this.

Definition empty (this : Slice) : bool := size_ this =? 0.

(** [operator[]], with its [assert(n < size())]. *)
Definition at_ (m : Memory) (this : Slice) (n : nat) : option byte :=
  if n <? size this then Some (m (data_ this + n)) else None.

(** [remove_prefix], with its [assert(n <= size())]. *)
Definition remove_prefix (this : Slice) (n : nat) : option Slice :=
  if n <=? size this
  then Some (mkSlice (data_ this + n) (size_ this - n))
  else None.

(** [ToString]: the copy of the referenced bytes. *)
Definition ToString (m : Memory) (this : Slice) : std_string :=
  view m this.

(** [Slice() : data_(""), size_(0)]; [empty_literal] is the address at
    which the string literal [""] is stored. *)
Definition empty_slice (empty_literal : ptr) : Slice := mkSlice empty_literal 0.

(** [clear]: the slice is made to refer to the literal [""]. *)
Definition clear (empty_literal : ptr) (this : Slice) : Slice :=
  mkSlice empty_literal 0.

(** The comparisons below call [memcmp]; the C library they are linked
    against is the parameter [libc_memcmp]. *)
Section WithLibc.

Variable libc_memcmp : Memory -> ptr -> ptr -> nat -> Z.

(** [Slice::compare] *)
Definition compare (m : Memory) (this b : Slice) : Z :=
  let min_len := if size_ this <? size_ b then size_ this else size_ b in
  let r := libc_memcmp m (data_ this) (data_ b) min_len in
  if (r =? 0)%Z then
    if size_ this <? size_ b then (-1)%Z
    else if size_ b <? size_ this then 1%Z
    else r
  else r.

(** [Slice::starts_with] *)
Definition starts_with (m : Memory) (this x : Slice) : bool :=
  (size_ x <=? size_ this)
  && (libc_memcmp m (data_ this) (data_ x) (size_ x) =? 0)%Z.

(** [operator==] *)
Definition eq (m : Memory) (x y : Slice) : bool :=
  (size x =? size y)
  && (libc_memcmp m (data x) (data y) (size x) =? 0)%Z.

(** [operator!=] *)
Definition ne (m : Memory) (x y : Slice) : bool := negb (eq m x y).

End WithLibc.

End SliceOps.

(** ** include/leveldb/comparator.h: the built-in bytewise comparator

    The header declares the abstract [Comparator] and the accessor
    [BytewiseComparator()]; the implementing class lives in
    [util/comparator.cc]. *)

(** [c + 1] on an [unsigned char], with its wrap-around at 256. *)
Definition byte_incr (c : byte) : byte :=
  match Byte.of_N ((Byte.to_N c + 1) mod 256) with
  | Some c' => c'
  | None => c
  end.

(** A memory holding the bytes of [a] from address 0 on. *)
Definition memory_of (a : list byte) : Memory := fun p => nth p a x00.

Module BytewiseComparator.

(** Modelled from the spec: the body of [Compare] in
    [util/comparator.cc] is missing.  The built-in comparator is defined
    to delegate to byte-view comparison: the two strings are laid out
    one after the other and compared as slices with [Slice::compare]. *)
Definition Compare (a b : std_string) : Z :=
  SliceOps.compare memcmp (memory_of (a ++ b))
    (mkSlice 0 (length a)) (mkSlice (length a) (length b)).

(** Length of the common byte prefix of two strings. *)
Fixpoint common_prefix_length (a b : std_string) : nat :=
  match a, b with
  | x :: a', y :: b' =>
      if Byte.eqb x y then S (common_prefix_length a' b') else O
  | _, _ => O
  end.

(** Increment the last byte of a string by one. *)
Definition incr_last (s : std_string) : std_string :=
  match s with
  | [] => []
  | _ => removelast s ++ [byte_incr (last s x00)]
  end.

(** Modelled from the spec: the body of [FindShortestSeparator] in
    [util/comparator.cc] is missing.  Compute the length of the common
    byte prefix of [start] and [limit].  If it is less than both
    lengths, and the byte in [start] right after the common prefix is
    less than 0xff and also strictly less than the corresponding byte in
    [limit], truncate [start] to that length plus one and increment its
    last byte by one; otherwise leave [start] unchanged.  The result is
    the new value of [*start]. *)
Definition FindShortestSeparator (start limit : std_string) : std_string :=
  let diff_index := common_prefix_length start limit in
  if (diff_index <? length start) && (diff_index <? length limit) then
    let diff_byte := uchar (nth diff_index start x00) in
    if (diff_byte <? 255)%Z
       && (diff_byte <? uchar (nth diff_index limit x00))%Z
    then incr_last (firstn (diff_index + 1) start)
    else start
  else start.

(** Position of the first byte strictly less than 0xff, scanning left
    to right from position [i]. *)
Fixpoint first_below_ff (key : std_string) (i : nat) : option nat :=
  match key with
  | [] => None
  | c :: rest =>
      if (uchar c <? 255)%Z then Some i else first_below_ff rest (S i)
  end.

(** Modelled from the spec: the body of [FindShortSuccessor] in
    [util/comparator.cc] is missing.  Scan the bytes of [key] left to
    right; at the first byte strictly less than 0xff, truncate [key] to
    that position plus one and increment that byte by one, then stop.
    If every byte is 0xff, or the key is empty, leave [key] unchanged.
    The result is the new value of [*key]. *)
Definition FindShortSuccessor (key : std_string) : std_string :=
  match first_below_ff key 0 with
  | Some i => incr_last (firstn (i + 1) key)
  | None => key
  end.

End BytewiseComparator.

(** ** util/arena.h *)

Record Arena : Type := mkArena {
  alloc_ptr_ : ptr;
  alloc_bytes_remaining_ : nat;
  blocks_ : list ptr;
  memory_usage_ : nat
}.

(** One call of the public allocation interface. *)
Inductive Call : Type :=
| CallAllocate (bytes : nat)
| CallAllocateAligned (bytes : nat).

(** The byte count a call explicitly asks for. *)
Definition requested (c : Call) : nat :=
  match c with
  | CallAllocate bytes => bytes
  | CallAllocateAligned bytes => bytes
  end.

Definition total_requested (cs : list Call) : nat :=
  fold_right (fun c acc => requested c + acc) 0 cs.

Module ArenaOps.
Section WithPlatform.

(** [new char[n]]: the address the system allocator returns for a block
    of [n] bytes when the blocks in the list are already live. *)
Variable operator_new : list ptr -> nat -> ptr.

(** The size of a machine pointer, in bytes. *)
Variable pointer_size : nat.

(** Modelled from the spec: the constant is defined in [util/arena.cc],
    which is missing.  Standard block size is a fixed constant, 4096
    bytes. *)
Definition kBlockSize : nat := 4096.

(** Modelled from the spec: the constructor is defined in
    [util/arena.cc], which is missing.  The arena is created empty, with
    no blocks. *)
Definition new_arena : Arena := mkArena 0 0 [] 0.

(** [Arena::MemoryUsage] *)
Definition MemoryUsage (a : Arena) : nat := memory_usage_ a.

(** Modelled from the spec: the body of [AllocateNewBlock] in
    [util/arena.cc] is missing.  Allocate a block of [block_bytes]
    bytes, append its address to the tracked blocks and add its byte
    count to the running total. *)
Definition AllocateNewBlock (a : Arena) (block_bytes : nat) : ptr * Arena :=
  let result := operator_new (blocks_ a) block_bytes in
  (result,
   mkArena (alloc_ptr_ a) (alloc_bytes_remaining_ a)
           (blocks_ a ++ [result])
           (memory_usage_ a + block_bytes)).

(** Modelled from the spec: the body of [AllocateFallback] in
    [util/arena.cc] is missing.  If the requested size is at least one
    quarter of the standard block size, allocate a dedicated block of
    exactly the requested size and do not advance the shared bump
    pointer and remaining count.  Otherwise allocate a new standard-size
    block, reset the bump pointer and remaining count to reference it,
    and satisfy the request from its start. *)
Definition AllocateFallback (a : Arena) (bytes : nat) : ptr * Arena :=
  if kBlockSize / 4 <=? bytes then
    AllocateNewBlock a bytes
  else
    let (block, a') := AllocateNewBlock a kBlockSize in
    (block,
     mkArena (block + bytes) (kBlockSize - bytes)
             (blocks_ a') (memory_usage_ a')).

(** [Arena::Allocate] *)
Definition Allocate (a : Arena) (bytes : nat) : option (ptr * Arena) :=
  if bytes =? 0 then None
  else if bytes <=? alloc_bytes_remaining_ a then
    let result := alloc_ptr_ a in
    Some (result,
          mkArena (alloc_ptr_ a + bytes) (alloc_bytes_remaining_ a - bytes)
                  (blocks_ a) (memory_usage_ a))
  else Some (AllocateFallback a bytes).

(** Modelled from the spec: the alignment used by [AllocateAligned] in
    [util/arena.cc], which is missing: the larger of 8 bytes and the
    machine pointer size, rounded up to a power of two no larger than
    128. *)
Definition align : nat :=
  let wanted := Nat.max 8 pointer_size in
  if wanted <=? 8 then 8
  else if wanted <=? 16 then 16
  else if wanted <=? 32 then 32
  else if wanted <=? 64 then 64
  else 128.

(** Modelled from the spec: the body of [AllocateAligned] in
    [util/arena.cc] is missing.  Compute the current misalignment of the
    free pointer modulo the alignment, pad by the complement if nonzero,
    then perform the same allocation as [Allocate] for [bytes] plus the
    padding, returning the address after the padding. *)
Definition AllocateAligned (a : Arena) (bytes : nat) : option (ptr * Arena) :=
  let current_mod := alloc_ptr_ a mod align in
  let slop := if current_mod =? 0 then 0 else align - current_mod in
  match Allocate a (bytes + slop) with
  | Some (result, a') => Some (result + slop, a')
  | None => None
  end.

(** One call on an arena: the returned pointer and the arena after it. *)
Definition step (a : Arena) (c : Call) : option (ptr * Arena) :=
  match c with
  | CallAllocate bytes => Allocate a bytes
  | CallAllocateAligned bytes => AllocateAligned a bytes
  end.

(** A sequence of calls on one arena; [None] when some call violates an
    assertion. *)
Fixpoint run (a : Arena) (cs : list Call) : option Arena :=
  match cs with
  | [] => Some a
  | c :: cs' =>
      match step a c with
      | Some (_, a') => run a' cs'
      | None => None
      end
  end.

End WithPlatform.
End ArenaOps.

(** ** Runs of [Allocate] calls *)

(** [Allocate] called once for each size of the list, in order: the
    pointers returned and the arena after the last call; [None] when a
    call violates the assertion. *)
Fixpoint Allocate_each (operator_new : list ptr -> nat -> ptr)
    (a : Arena) (sizes : list nat) : option (list ptr * Arena) :=
  match sizes with
  | [] => Some ([], a)
  | bytes :: rest =>
      match ArenaOps.Allocate operator_new a bytes with
      | Some (p, a') =>
          match Allocate_each operator_new a' rest with
          | Some (ps, a'') => Some (p :: ps, a'')
          | None => None
          end
      | None => None
      end
  end.

(** The addresses of consecutive ranges of the given sizes, the first one
    starting at [p]. *)
Fixpoint packed_from (p : ptr) (sizes : list nat) : list ptr :=
  match sizes with
  | [] => []
  | bytes :: rest => p :: packed_from (p + bytes) rest
  end.

(** ** Byte sequences: what [memcmp] and [Slice::compare] compute *)

(** Result of [memcmp] on two sequences of bytes: the difference of the
    first differing pair, zero when one sequence runs out first. *)
Fixpoint first_diff (a b : list byte) : Z :=
  match a, b with
  | x :: a', y :: b' =>
      if Byte.eqb x y then first_diff a' b' else (uchar x - uchar y)%Z
  | _, _ => 0%Z
  end.

(** Result of [Slice::compare] on the two sequences of bytes viewed. *)
Fixpoint compare_bytes (a b : list byte) : Z :=
  match a, b with
  | [], [] => 0%Z
  | [], _ :: _ => (-1)%Z
  | _ :: _, [] => 1%Z
  | x :: a', y :: b' =>
      if Byte.eqb x y then compare_bytes a' b' else (uchar x - uchar y)%Z
  end.

(** ** Case analyses and invariants used by the proofs *)

Import BytewiseComparator.

(** Two strings split at their common prefix: what follows it differs at
    once, unless one of them ends there. *)
Inductive prefix_split (a b : std_string) : Prop :=
| split_end_l (p b' : std_string) :
    a = p -> b = p ++ b' -> common_prefix_length a b = length p ->
    prefix_split a b
| split_end_r (p : std_string) (x : byte) (a' : std_string) :
    a = p ++ x :: a' -> b = p -> common_prefix_length a b = length p ->
    prefix_split a b
| split_diff (p : std_string) (x y : byte) (a' b' : std_string) :
    a = p ++ x :: a' -> b = p ++ y :: b' -> x <> y ->
    common_prefix_length a b = length p ->
    prefix_split a b.

(** The two outcomes of [FindShortestSeparator]. *)
Inductive separator_outcome (start limit : std_string) : Prop :=
| separator_shortened (p : std_string) (x y : byte) (a' b' : std_string) :
    start = p ++ x :: a' -> limit = p ++ y :: b' -> x <> y ->
    (uchar x < 255)%Z -> (uchar x < uchar y)%Z ->
    common_prefix_length start limit = length p ->
    FindShortestSeparator start limit = p ++ [byte_incr x] ->
    separator_outcome start limit
| separator_unchanged :
    ~ (common_prefix_length start limit < length start
       /\ common_prefix_length start limit < length limit
       /\ (uchar (nth (common_prefix_length start limit) start x00) < 255)%Z
       /\ (uchar (nth (common_prefix_length start limit) start x00)
           < uchar (nth (common_prefix_length start limit) limit x00))%Z) ->
    FindShortestSeparator start limit = start ->
    separator_outcome start limit.

(** The bookkeeping invariant behind the usage bound: what has been
    requested so far, plus what is still free in the current block, is
    covered by the blocks counted in the usage. *)
Definition covers (a : Arena) (r : nat) : Prop :=
  r + alloc_bytes_remaining_ a <= memory_usage_ a.

(** ** The ordering as the specification words it *)

Module Spec.

(** Three-way byte-wise comparison of two byte sequences, position by
    position, as unsigned bytes; it stops at the end of the shorter
    one. *)
Fixpoint bytewise (a b : list byte) : comparison :=
  match a, b with
  | x :: a', y :: b' =>
      match (uchar x ?= uchar y)%Z with
      | Eq => bytewise a' b'
      | c => c
      end
  | _, _ => Eq
  end.

(** Byte-wise compare the overlapping prefix (length = min of the two
    lengths); if that prefix comparison is equal, the shorter view sorts
    first, else equal lengths with equal prefix means equal. *)
Definition compare (a b : list byte) : comparison :=
  let n := Nat.min (length a) (length b) in
  match bytewise (firstn n a) (firstn n b) with
  | Eq => (length a ?= length b)%nat
  | c => c
  end.

(** [x] is a byte-wise prefix of [v]. *)
Definition is_prefix (x v : list byte) : Prop :=
  exists rest, v = x ++ rest.

End Spec.

(* ================================================================= *)
(** * Part II: properties *)
(* ================================================================= *)

(** ** Bytes *)

Lemma uchar_range (c : byte) : (0 <= uchar c <= 255)%Z.
Proof.
  unfold uchar. pose proof (Byte.to_N_bounded c). lia.
Qed.

Lemma uchar_inj (x y : byte) : uchar x = uchar y -> x = y.
Proof.
  unfold uchar. intros H. apply N2Z.inj in H.
  pose proof (Byte.of_to_N x) as Hx. rewrite H, Byte.of_to_N in Hx.
  congruence.
Qed.

Lemma byte_eqb_refl (x : byte) : Byte.eqb x x = true.
Proof. now apply Byte.byte_dec_lb. Qed.

Lemma byte_eqb_eq (x y : byte) : Byte.eqb x y = true <-> x = y.
Proof.
  split; [apply Byte.byte_dec_bl | apply Byte.byte_dec_lb].
Qed.

Lemma byte_eqb_neq (x y : byte) : Byte.eqb x y = false <-> x <> y.
Proof.
  split.
  - apply Byte.eqb_false.
  - intros Hn. destruct (Byte.eqb x y) eqn:E; [|reflexivity].
    now apply byte_eqb_eq in E.
Qed.

Lemma uchar_diff_zero (x y : byte) : (uchar x - uchar y = 0)%Z -> x = y.
Proof. intros H. apply uchar_inj. lia. Qed.

(** Below 0xff the increment does not wrap. *)
Lemma uchar_byte_incr (c : byte) :
  (uchar c < 255)%Z -> uchar (byte_incr c) = (uchar c + 1)%Z.
Proof.
  unfold uchar, byte_incr. intros H.
  assert (Hsmall : (Byte.to_N c + 1 < 256)%N) by lia.
  rewrite (N.mod_small _ _ Hsmall).
  destruct (Byte.of_N (Byte.to_N c + 1)) as [c'|] eqn:E.
  - apply Byte.to_of_N in E. rewrite E. lia.
  - apply Byte.of_N_None_iff in E. lia.
Qed.

(** Case analysis on the equality test of two bytes. *)
Ltac byte_cases x y :=
  let E := fresh "E" in
  destruct (Byte.eqb x y) eqn:E;
  [ apply byte_eqb_eq in E; try subst | apply byte_eqb_neq in E ].

Lemma uchar_neq (x y : byte) : x <> y -> uchar x <> uchar y.
Proof. intros Hn H. now apply uchar_inj in H. Qed.

(** The same without substitution; distinct bytes are recorded as
    distinct numbers, for [lia]. *)
Ltac byte_cases_num x y :=
  let E := fresh "E" in
  destruct (Byte.eqb x y) eqn:E;
  [ apply byte_eqb_eq in E
  | apply byte_eqb_neq in E; pose proof (uchar_neq _ _ E) ].

(** ** Byte sequences: the order computed by [Slice::compare] *)

Lemma bytes_at_length m p n : length (bytes_at m p n) = n.
Proof. unfold bytes_at. now rewrite length_map, length_seq. Qed.

Lemma bytes_at_S m p n : bytes_at m p (S n) = m p :: bytes_at m (S p) n.
Proof. reflexivity. Qed.

Lemma bytes_at_firstn m p n k :
  k <= n -> firstn k (bytes_at m p n) = bytes_at m p k.
Proof.
  revert p n. induction k as [|k IH]; intros p n Hk; [reflexivity|].
  destruct n as [|n]; [lia|].
  rewrite !bytes_at_S. simpl. f_equal. apply IH. lia.
Qed.

Lemma bytes_at_nth m p n i :
  i < n -> nth i (bytes_at m p n) x00 = m (p + i).
Proof.
  intros Hi. unfold bytes_at.
  rewrite (nth_indep _ x00 (m 0)) by now rewrite length_map, length_seq.
  rewrite map_nth, seq_nth by assumption. reflexivity.
Qed.

Lemma memcmp_first_diff m p q n :
  memcmp m p q n = first_diff (bytes_at m p n) (bytes_at m q n).
Proof.
  revert p q. induction n as [|n IH]; intros p q; [reflexivity|].
  rewrite !bytes_at_S. simpl. now rewrite IH.
Qed.

Lemma first_diff_zero_iff (a b : list byte) :
  length a = length b -> (first_diff a b = 0%Z <-> a = b).
Proof.
  revert b. induction a as [|x a IH]; intros [|y b] Hlen;
    simpl in *; try discriminate; [tauto|].
  injection Hlen as Hlen. byte_cases x y.
  - rewrite (IH b Hlen). split; congruence.
  - split; [intros H; apply uchar_diff_zero in H; contradiction | congruence].
Qed.

(** [Slice::compare] written on the viewed bytes: the minimum length, the
    prefix comparison and the tie-break on lengths collapse into one
    recursion over the two sequences. *)
Lemma compare_steps_bytes (a b : list byte) :
  (let min_len := if length a <? length b then length a else length b in
   let r := first_diff (firstn min_len a) (firstn min_len b) in
   if (r =? 0)%Z then
     if length a <? length b then (-1)%Z
     else if length b <? length a then 1%Z
     else r
   else r) = compare_bytes a b.
Proof.
  revert b. induction a as [|x a IH]; intros [|y b]; try reflexivity.
  cbn zeta in *. specialize (IH b).
  change (length (x :: a)) with (S (length a)).
  change (length (y :: b)) with (S (length b)).
  change (S (length a) <? S (length b)) with (length a <? length b).
  change (S (length b) <? S (length a)) with (length b <? length a).
  destruct (length a <? length b) eqn:Hlt; simpl; byte_cases x y;
    try exact IH.
  - destruct (uchar x - uchar y =? 0)%Z eqn:Hz; [|reflexivity].
    apply Z.eqb_eq, uchar_diff_zero in Hz. contradiction.
  - destruct (uchar x - uchar y =? 0)%Z eqn:Hz; [|reflexivity].
    apply Z.eqb_eq, uchar_diff_zero in Hz. contradiction.
Qed.

Lemma view_length m s : length (view m s) = size_ s.
Proof. apply bytes_at_length. Qed.

Lemma compare_view m a b :
  SliceOps.compare memcmp m a b = compare_bytes (view m a) (view m b).
Proof.
  rewrite <- compare_steps_bytes. cbn zeta.
  rewrite !view_length. unfold SliceOps.compare, view.
  rewrite memcmp_first_diff.
  destruct (size_ a <? size_ b) eqn:Hlt.
  - apply Nat.ltb_lt in Hlt.
    rewrite (bytes_at_firstn m (data_ a) (size_ a) (size_ a)) by lia.
    rewrite (bytes_at_firstn m (data_ b) (size_ b) (size_ a)) by lia.
    reflexivity.
  - apply Nat.ltb_ge in Hlt.
    rewrite (bytes_at_firstn m (data_ a) (size_ a) (size_ b)) by lia.
    rewrite (bytes_at_firstn m (data_ b) (size_ b) (size_ b)) by lia.
    reflexivity.
Qed.

Lemma compare_bytes_refl (a : list byte) : compare_bytes a a = 0%Z.
Proof.
  induction a as [|x a IH]; [reflexivity|].
  simpl. now rewrite byte_eqb_refl.
Qed.

Lemma compare_bytes_antisym (a b : list byte) :
  compare_bytes a b = (- compare_bytes b a)%Z.
Proof.
  revert b. induction a as [|x a IH]; intros [|y b]; try reflexivity.
  simpl. byte_cases x y.
  - rewrite byte_eqb_refl. apply IH.
  - assert (Hyx : Byte.eqb y x = false) by (apply byte_eqb_neq; congruence).
    rewrite Hyx. lia.
Qed.

Lemma compare_bytes_zero_iff (a b : list byte) :
  compare_bytes a b = 0%Z <-> a = b.
Proof.
  split; [|intros ->; apply compare_bytes_refl].
  revert b. induction a as [|x a IH]; intros [|y b]; simpl;
    try discriminate; [reflexivity|].
  byte_cases x y.
  - intros H. f_equal. now apply IH.
  - intros H. apply uchar_diff_zero in H. contradiction.
Qed.




(** A sequence sorts before each of its proper extensions. *)
Lemma compare_bytes_app (a rest : list byte) :
  compare_bytes a (a ++ rest) = match rest with [] => 0%Z | _ => (-1)%Z end.
Proof.
  induction a as [|x a IH]; simpl.
  - now destruct rest.
  - now rewrite byte_eqb_refl.
Qed.

(** The order of [Slice::compare] concerns the bytes before the first
    difference only: a common prefix can be dropped. *)
Lemma compare_bytes_app_l (p a b : list byte) :
  compare_bytes (p ++ a) (p ++ b) = compare_bytes a b.
Proof.
  induction p as [|x p IH]; [reflexivity|].
  simpl. now rewrite byte_eqb_refl.
Qed.

(** *** Agreement with the specification's wording *)

Lemma spec_compare_cons (x y : byte) (a b : list byte) :
  Spec.compare (x :: a) (y :: b) =
  match (uchar x ?= uchar y)%Z with
  | Eq => Spec.compare a b
  | c => c
  end.
Proof.
  unfold Spec.compare. simpl.
  destruct (uchar x ?= uchar y)%Z; reflexivity.
Qed.

Lemma compare_bytes_sign_spec (a b : list byte) :
  (compare_bytes a b ?= 0)%Z = Spec.compare a b.
Proof.
  revert b. induction a as [|x a IH]; intros [|y b]; try reflexivity.
  rewrite spec_compare_cons. cbn [compare_bytes]. byte_cases_num x y.
  - subst y. rewrite Z.compare_refl. apply IH.
  - destruct (Z.compare_spec (uchar x) (uchar y)) as [Hc|Hc|Hc].
    + contradiction.
    + apply Z.compare_lt_iff. lia.
    + apply Z.compare_gt_iff. lia.
Qed.

(** ** [memcmp] and [strlen] *)

Lemma memcmp_zero_iff m p q n :
  memcmp m p q n = 0%Z <-> bytes_at m p n = bytes_at m q n.
Proof.
  rewrite memcmp_first_diff. apply first_diff_zero_iff.
  now rewrite !bytes_at_length.
Qed.

Lemma bytes_at_snoc_inv m p q i :
  bytes_at m p (S i) = bytes_at m q (S i) ->
  m p = m q /\ bytes_at m (S p) i = bytes_at m (S q) i.
Proof. rewrite !bytes_at_S. intros H. now injection H. Qed.

(** [memcmp] returns the difference of the first pair of bytes that
    differ. *)
Lemma memcmp_first_difference m p q n i :
  i < n -> bytes_at m p i = bytes_at m q i -> m (p + i) <> m (q + i) ->
  memcmp m p q n = (uchar (m (p + i)%nat) - uchar (m (q + i)%nat))%Z.
Proof.
  revert p q n. induction i as [|i IH]; intros p q n Hi Heq Hne.
  - destruct n as [|n]; [lia|]. rewrite !Nat.add_0_r in *.
    simpl. apply byte_eqb_neq in Hne. now rewrite Hne.
  - destruct n as [|n]; [lia|].
    apply bytes_at_snoc_inv in Heq. destruct Heq as [Hhd Htl].
    simpl. rewrite Hhd, byte_eqb_refl.
    rewrite <- !Nat.add_succ_comm in *. apply IH; [lia|assumption|assumption].
Qed.

Lemma bytes_at_ext m m' p q n :
  (forall i, i < n -> m (p + i) = m' (q + i)) <->
  bytes_at m p n = bytes_at m' q n.
Proof.
  revert p q. induction n as [|n IH]; intros p q.
  - split; [reflexivity | intros _ i Hi; lia].
  - rewrite !bytes_at_S. split.
    + intros H. f_equal.
      * specialize (H 0). rewrite !Nat.add_0_r in H. apply H. lia.
      * apply IH. intros i Hi. specialize (H (S i)).
        rewrite <- !Nat.add_succ_comm in H. apply H. lia.
    + intros H. injection H as Hhd Htl. intros [|i] Hi.
      * now rewrite !Nat.add_0_r.
      * rewrite <- !Nat.add_succ_comm.
        apply (proj2 (IH (S p) (S q)) Htl). lia.
Qed.

Lemma bytes_at_app m p n k :
  bytes_at m p (n + k) = bytes_at m p n ++ bytes_at m (p + n) k.
Proof.
  unfold bytes_at. now rewrite seq_app, map_app.
Qed.

(** [strlen] returns the offset of the first NUL as soon as the fuel
    reaches past it. *)
Lemma strlen_first_nul m s n fuel :
  (forall i, i < n -> m (s + i) <> x00) -> m (s + n) = x00 -> n < fuel ->
  strlen fuel m s = Some n.
Proof.
  revert s fuel. induction n as [|n IH]; intros s fuel Hpre Hnul Hfuel;
    (destruct fuel as [|fuel]; [lia|]); simpl.
  - rewrite Nat.add_0_r in Hnul. now rewrite Hnul.
  - assert (H0 : Byte.eqb (m s) x00 = false).
    { apply byte_eqb_neq. specialize (Hpre 0). rewrite Nat.add_0_r in Hpre.
      apply Hpre. lia. }
    rewrite H0, (IH (S s) fuel); [reflexivity| | |lia].
    + intros i Hi. rewrite Nat.add_succ_comm. apply Hpre. lia.
    + now rewrite Nat.add_succ_comm.
Qed.

(** ** Slice *)

Lemma min_len_min (x y : nat) : (if x <? y then x else y) = Nat.min x y.
Proof. destruct (x <? y) eqn:H; [apply Nat.ltb_lt in H | apply Nat.ltb_ge in H]; lia. Qed.

Lemma view_eq_iff m m' a b :
  view m a = view m' b <->
  size_ a = size_ b /\ forall i, i < size_ a -> m (data_ a + i) = m' (data_ b + i).
Proof.
  unfold view. split.
  - intros H. assert (Hlen : size_ a = size_ b).
    { apply (f_equal (@length byte)) in H. now rewrite !bytes_at_length in H. }
    split; [assumption|]. rewrite <- Hlen in H. now apply bytes_at_ext.
  - intros [Hlen H]. rewrite <- Hlen. now apply bytes_at_ext.
Qed.

Lemma eq_true_iff_view m x y :
  SliceOps.eq memcmp m x y = true <-> view m x = view m y.
Proof.
  unfold SliceOps.eq, SliceOps.size, SliceOps.data, view.
  rewrite andb_true_iff, Nat.eqb_eq, Z.eqb_eq, memcmp_zero_iff. split.
  - intros [Hlen H]. now rewrite <- Hlen.
  - intros H. assert (Hlen : size_ x = size_ y).
    { apply (f_equal (@length byte)) in H. now rewrite !bytes_at_length in H. }
    split; [assumption|]. now rewrite Hlen at 2.
Qed.

Lemma compare_zero_iff_view m a b :
  SliceOps.compare memcmp m a b = 0%Z <-> view m a = view m b.
Proof. rewrite compare_view. apply compare_bytes_zero_iff. Qed.

(** With an equal common prefix, [Slice::compare] decides on the sizes. *)
Lemma compare_equal_prefix m a b :
  bytes_at m (data_ a) (Nat.min (size_ a) (size_ b)) =
  bytes_at m (data_ b) (Nat.min (size_ a) (size_ b)) ->
  SliceOps.compare memcmp m a b =
  match (size_ a ?= size_ b)%nat with Lt => (-1)%Z | Eq => 0%Z | Gt => 1%Z end.
Proof.
  intros H. unfold SliceOps.compare. cbn zeta. rewrite min_len_min.
  apply memcmp_zero_iff in H. rewrite H. simpl.
  destruct (Nat.compare_spec (size_ a) (size_ b)) as [Hc|Hc|Hc].
  - rewrite Hc, Nat.ltb_irrefl. reflexivity.
  - apply Nat.ltb_lt in Hc. now rewrite Hc.
  - assert (H1 : (size_ a <? size_ b) = false) by (apply Nat.ltb_ge; lia).
    apply Nat.ltb_lt in Hc. now rewrite H1, Hc.
Qed.

(** With a first differing byte inside the common prefix, the sign of
    [Slice::compare] is the order of these two bytes. *)
Lemma compare_first_difference m a b i :
  i < Nat.min (size_ a) (size_ b) ->
  bytes_at m (data_ a) i = bytes_at m (data_ b) i ->
  m (data_ a + i) <> m (data_ b + i) ->
  (SliceOps.compare memcmp m a b ?= 0)%Z =
  (uchar (m (data_ a + i)%nat) ?= uchar (m (data_ b + i)%nat))%Z.
Proof.
  intros Hi Heq Hne. unfold SliceOps.compare. cbn zeta. rewrite min_len_min.
  rewrite memcmp_first_difference with (i := i) by assumption.
  pose proof (uchar_neq _ _ Hne) as Hn.
  assert (Hz : (uchar (m (data_ a + i)%nat) - uchar (m (data_ b + i)%nat) =? 0)%Z = false)
    by (apply Z.eqb_neq; lia).
  rewrite Hz.
  destruct (Z.compare_spec (uchar (m (data_ a + i))) (uchar (m (data_ b + i))))
    as [Hc|Hc|Hc].
  - contradiction.
  - apply Z.compare_lt_iff. lia.
  - apply Z.compare_gt_iff. lia.
Qed.

Lemma is_prefix_firstn (x v : list byte) :
  Spec.is_prefix x v <-> length x <= length v /\ firstn (length x) v = x.
Proof.
  split.
  - intros [rest ->]. rewrite length_app. split; [lia|].
    rewrite firstn_app, Nat.sub_diag, firstn_all. simpl. apply app_nil_r.
  - intros [_ H]. exists (skipn (length x) v).
    rewrite <- (firstn_skipn (length x) v) at 1. now rewrite H.
Qed.

(** C1.  [Slice::compare] returns the three-way result of byte-wise
    comparing the first [min(len(a), len(b))] bytes; when that common
    prefix is equal the result is negative if [a] is shorter, positive if
    [a] is longer, and zero if the lengths are equal too.  The first
    conjunct states it against the specification's ordering, the other two
    spell the two cases out on the memory. *)
Theorem compare_three_way (m : Memory) (a b : Slice) :
  (SliceOps.compare memcmp m a b ?= 0)%Z = Spec.compare (view m a) (view m b)
  /\ (bytes_at m (data_ a) (Nat.min (size_ a) (size_ b)) =
      bytes_at m (data_ b) (Nat.min (size_ a) (size_ b)) ->
      (size_ a < size_ b -> (SliceOps.compare memcmp m a b < 0)%Z)
      /\ (size_ a > size_ b -> (SliceOps.compare memcmp m a b > 0)%Z)
      /\ (size_ a = size_ b -> SliceOps.compare memcmp m a b = 0%Z))
  /\ (forall i : nat,
        i < Nat.min (size_ a) (size_ b) ->
        bytes_at m (data_ a) i = bytes_at m (data_ b) i ->
        m (data_ a + i) <> m (data_ b + i) ->
        (SliceOps.compare memcmp m a b ?= 0)%Z =
        (uchar (m (data_ a + i)%nat) ?= uchar (m (data_ b + i)%nat))%Z).
Proof.
  split; [|split].
  - rewrite compare_view. apply compare_bytes_sign_spec.
  - intros Hpre. rewrite (compare_equal_prefix m a b Hpre).
    destruct (Nat.compare_spec (size_ a) (size_ b)); repeat split; lia.
  - intros i. apply compare_first_difference.
Qed.

(** C2.  [a.compare(b) == 0] exactly when [a] and [b] have the same length
    and the same bytes; this is exactly when [operator==] holds; and both
    results are functions of the viewed bytes alone, whatever the addresses
    (and the memory) they are read from. *)
Theorem compare_zero_iff_equal (m : Memory) (a b : Slice) :
  (SliceOps.compare memcmp m a b = 0%Z <->
   size_ a = size_ b /\
   forall i : nat, i < size_ a -> m (data_ a + i) = m (data_ b + i))
  /\ (SliceOps.eq memcmp m a b = true <-> SliceOps.compare memcmp m a b = 0%Z)
  /\ (forall (m' : Memory) (a' b' : Slice),
        view m' a' = view m a -> view m' b' = view m b ->
        SliceOps.compare memcmp m' a' b' = SliceOps.compare memcmp m a b
        /\ SliceOps.eq memcmp m' a' b' = SliceOps.eq memcmp m a b).
Proof.
  split; [|split].
  - rewrite compare_zero_iff_view. apply view_eq_iff.
  - now rewrite eq_true_iff_view, compare_zero_iff_view.
  - intros m' a' b' Ha Hb. split.
    + now rewrite !compare_view, Ha, Hb.
    + apply Bool.eq_iff_eq_true. now rewrite !eq_true_iff_view, Ha, Hb.
Qed.


(** C8.  A slice whose bytes are a proper prefix of the bytes of another
    compares below it. *)
Theorem compare_proper_prefix (m : Memory) (a b : Slice) :
  Spec.is_prefix (view m a) (view m b) -> view m a <> view m b ->
  (SliceOps.compare memcmp m a b < 0)%Z.
Proof.
  intros [rest Hrest] Hne. rewrite compare_view, Hrest, compare_bytes_app.
  destruct rest as [|r rest]; [|lia].
  rewrite app_nil_r in Hrest. congruence.
Qed.

Lemma compare_proper_prefix_witness :
  let m := memory_of (bytes_of "abcabd"%string) in
  let a := mkSlice 0 2 in
  let b := mkSlice 3 3 in
  Spec.is_prefix (view m a) (view m b) /\ view m a <> view m b
  /\ (SliceOps.compare memcmp m a b < 0)%Z.
Proof.
  cbv zeta.
  assert (Hp : Spec.is_prefix (view (memory_of (bytes_of "abcabd"%string)) (mkSlice 0 2))
                 (view (memory_of (bytes_of "abcabd"%string)) (mkSlice 3 3)))
    by (exists [x64]; reflexivity).
  assert (Hn : view (memory_of (bytes_of "abcabd"%string)) (mkSlice 0 2) <>
               view (memory_of (bytes_of "abcabd"%string)) (mkSlice 3 3))
    by discriminate.
  exact (conj Hp (conj Hn (compare_proper_prefix _ _ _ Hp Hn))).
Defined.

Lemma starts_with_true_iff (m : Memory) (v x : Slice) :
  SliceOps.starts_with memcmp m v x = true <->
  size_ x <= size_ v /\ firstn (size_ x) (view m v) = view m x.
Proof.
  unfold SliceOps.starts_with, view.
  rewrite andb_true_iff, Nat.leb_le, Z.eqb_eq, memcmp_zero_iff.
  split; intros [Hle H]; (split; [assumption|]).
  - now rewrite bytes_at_firstn.
  - now rewrite bytes_at_firstn in H.
Qed.

(** [starts_with] decides the prefix relation on the viewed bytes. *)
Lemma starts_with_is_prefix (m : Memory) (v x : Slice) :
  SliceOps.starts_with memcmp m v x = true <->
  Spec.is_prefix (view m x) (view m v).
Proof.
  now rewrite starts_with_true_iff, is_prefix_firstn, !view_length.
Qed.

(** C9.  [v.starts_with(x)] is true exactly when [x] is no longer than [v]
    and the first [len(x)] bytes of [v] are the bytes of [x]; it is true
    for every empty [x] and false for every [x] longer than [v]. *)
Theorem starts_with_iff_prefix (m : Memory) (v x : Slice) :
  (SliceOps.starts_with memcmp m v x = true <->
   size_ x <= size_ v /\ firstn (size_ x) (view m v) = view m x)
  /\ (size_ x = 0 -> SliceOps.starts_with memcmp m v x = true)
  /\ (size_ v < size_ x -> SliceOps.starts_with memcmp m v x = false).
Proof.
  pose proof (starts_with_true_iff m v x) as Hiff.
  split; [exact Hiff|split].
  - intros Hx. apply Hiff. split; [lia|].
    unfold view. now rewrite Hx.
  - intros Hlt. apply Bool.not_true_is_false. intros E.
    apply Hiff in E. lia.
Qed.

Lemma app_same_length_inv (A : Type) (a b c d : list A) :
  length a = length c -> a ++ b = c ++ d -> a = c /\ b = d.
Proof.
  revert c. induction a as [|x a IH]; intros [|y c] Hlen H;
    simpl in *; try discriminate; [now split|].
  injection Hlen as Hlen. injection H as Hxy H.
  destruct (IH c Hlen H) as [-> ->]. now subst.
Qed.

(** C10.  [Slice(const char* s)] takes [strlen(s)] for its size: when the
    memory at [s] holds the bytes [pre], free of NUL, then a NUL, then any
    bytes [post], the slice built views exactly [pre]; what follows the
    first NUL is dropped. *)
Theorem from_cstr_stops_at_first_nul
    (m : Memory) (s : ptr) (pre post : list byte) (fuel : nat) :
  bytes_at m s (length pre + (1 + length post)) = pre ++ x00 :: post ->
  ~ In x00 pre ->
  length pre < fuel ->
  strlen fuel m s = Some (length pre)
  /\ SliceOps.from_cstr fuel m s = Some (mkSlice s (length pre))
  /\ view m (mkSlice s (length pre)) = pre.
Proof.
  intros Hmem Hnul Hfuel.
  rewrite bytes_at_app in Hmem.
  apply app_same_length_inv in Hmem; [|apply bytes_at_length].
  destruct Hmem as [Hmem Hz]. simpl in Hz. injection Hz as Hz _.
  assert (Hs : strlen fuel m s = Some (length pre)).
  { apply strlen_first_nul; [|assumption|assumption].
    intros i Hi Habs. apply Hnul. rewrite <- Hmem.
    rewrite <- Habs, <- (bytes_at_nth m s (length pre)) by assumption.
    apply nth_In. now rewrite bytes_at_length. }
  split; [exact Hs|split].
  - unfold SliceOps.from_cstr. now rewrite Hs.
  - exact Hmem.
Qed.

Lemma from_cstr_stops_at_first_nul_witness :
  let m := memory_of ([x61; x62; x00; x63; x64; x00]) in
  bytes_at m 0 (length [x61; x62] + (1 + length [x63; x64; x00]))
    = [x61; x62] ++ x00 :: [x63; x64; x00]
  /\ ~ In x00 [x61; x62]
  /\ strlen 16 m 0 = Some 2
  /\ SliceOps.from_cstr 16 m 0 = Some (mkSlice 0 2)
  /\ view m (mkSlice 0 2) = [x61; x62].
Proof.
  cbv zeta.
  assert (Hm : bytes_at (memory_of [x61; x62; x00; x63; x64; x00]) 0
                 (length [x61; x62] + (1 + length [x63; x64; x00]))
               = [x61; x62] ++ x00 :: [x63; x64; x00]) by reflexivity.
  assert (Hn : ~ In x00 [x61; x62])
    by (intros [H|[H|[]]]; discriminate H).
  assert (Hf : length [x61; x62] < 16) by (simpl; lia).
  exact (conj Hm (conj Hn
           (from_cstr_stops_at_first_nul _ _ [x61; x62] [x63; x64; x00] _ Hm Hn Hf))).
Defined.

(** ** Slice over any conforming C library

    Only the sign of [memcmp] matters to the order: linked against any
    conforming [memcmp], [Slice::compare] has the sign it has with the
    reference implementation, and [starts_with] and [operator==] return
    the same booleans. *)

Lemma sgn_zero_eqb (x y : Z) : Z.sgn x = Z.sgn y -> (x =? 0)%Z = (y =? 0)%Z.
Proof.
  intros H. transitivity (Z.sgn x =? 0)%Z; [now destruct x|].
  rewrite H. now destruct y.
Qed.

Lemma compare_conforming (f : Memory -> ptr -> ptr -> nat -> Z) :
  memcmp_conforming f ->
  forall (m : Memory) (a b : Slice),
    Z.sgn (SliceOps.compare f m a b) = Z.sgn (SliceOps.compare memcmp m a b).
Proof.
  intros Hf m a b. unfold SliceOps.compare. cbn zeta.
  specialize (Hf m (data_ a) (data_ b)
                 (if size_ a <? size_ b then size_ a else size_ b)).
  rewrite (sgn_zero_eqb _ _ Hf).
  destruct (_ =? 0)%Z; [|exact Hf].
  destruct (size_ a <? size_ b); [reflexivity|].
  destruct (size_ b <? size_ a); [reflexivity|exact Hf].
Qed.

Lemma starts_with_conforming (f : Memory -> ptr -> ptr -> nat -> Z) :
  memcmp_conforming f ->
  forall (m : Memory) (v x : Slice),
    SliceOps.starts_with f m v x = SliceOps.starts_with memcmp m v x.
Proof.
  intros Hf m v x. unfold SliceOps.starts_with.
  now rewrite (sgn_zero_eqb _ _ (Hf m (data_ v) (data_ x) (size_ x))).
Qed.

Lemma eq_conforming (f : Memory -> ptr -> ptr -> nat -> Z) :
  memcmp_conforming f ->
  forall (m : Memory) (x y : Slice),
    SliceOps.eq f m x y = SliceOps.eq memcmp m x y.
Proof.
  intros Hf m x y. unfold SliceOps.eq, SliceOps.data, SliceOps.size.
  now rewrite (sgn_zero_eqb _ _ (Hf m (data_ x) (data_ y) (size_ x))).
Qed.

(** With any conforming [memcmp], swapping the arguments of
    [Slice::compare] swaps the sign of its result. *)
Lemma compare_conforming_antisym (f : Memory -> ptr -> ptr -> nat -> Z) :
  memcmp_conforming f ->
  forall (m : Memory) (a b : Slice),
    Z.sgn (SliceOps.compare f m a b) = (- Z.sgn (SliceOps.compare f m b a))%Z.
Proof.
  intros Hf m a b. rewrite !(compare_conforming f Hf), !compare_view.
  rewrite (compare_bytes_antisym (view m a) (view m b)). apply Z.sgn_opp.
Qed.

(** ** The bytewise comparator *)

Lemma bytes_at_memory_of (pre a post : list byte) :
  bytes_at (memory_of (pre ++ a ++ post)) (length pre) (length a) = a.
Proof.
  apply nth_ext with (d := x00) (d' := x00); [apply bytes_at_length|].
  intros i Hi. rewrite bytes_at_length in Hi.
  rewrite bytes_at_nth by assumption. unfold memory_of.
  rewrite app_nth2_plus. now apply app_nth1.
Qed.

(** The comparator orders two strings as [Slice::compare] orders their
    bytes. *)
Lemma Compare_bytes (a b : std_string) :
  BytewiseComparator.Compare a b = compare_bytes a b.
Proof.
  unfold BytewiseComparator.Compare. rewrite compare_view. unfold view. simpl.
  f_equal.
  - pose proof (bytes_at_memory_of [] a b) as H. exact H.
  - pose proof (bytes_at_memory_of a b []) as H.
    now rewrite app_nil_r in H.
Qed.

(** The comparator agrees with [Slice::compare] on any two slices of any
    memory. *)
Lemma Compare_view m a b :
  BytewiseComparator.Compare (view m a) (view m b) = SliceOps.compare memcmp m a b.
Proof. now rewrite Compare_bytes, compare_view. Qed.

Lemma common_prefix_split (a b : std_string) : prefix_split a b.
Proof.
  revert b. induction a as [|x a IH]; intros b.
  - now apply split_end_l with (p := []) (b' := b).
  - destruct b as [|y b].
    + now apply split_end_r with (p := []) (x := x) (a' := a).
    + destruct (Byte.eqb x y) eqn:E.
      * apply byte_eqb_eq in E. subst y.
        destruct (IH b) as [p b' Ha Hb Hk | p x' a' Ha Hb Hk
                           | p x' y' a' b' Ha Hb Hne Hk].
        -- apply split_end_l with (p := x :: p) (b' := b');
             simpl; [congruence|congruence|now rewrite byte_eqb_refl, Hk].
        -- apply split_end_r with (p := x :: p) (x := x') (a' := a');
             simpl; [congruence|congruence|now rewrite byte_eqb_refl, Hk].
        -- apply split_diff with (p := x :: p) (x := x') (y := y')
                                 (a' := a') (b' := b');
             simpl; [congruence|congruence|assumption
                    |now rewrite byte_eqb_refl, Hk].
      * apply split_diff with (p := []) (x := x) (y := y) (a' := a) (b' := b);
          simpl; [reflexivity|reflexivity|now apply byte_eqb_neq|now rewrite E].
Qed.

Lemma nth_middle_byte (p : list byte) (x : byte) (rest : list byte) :
  nth (length p) (p ++ x :: rest) x00 = x.
Proof. apply nth_middle. Qed.

Lemma firstn_prefix (p rest : list byte) : firstn (length p) (p ++ rest) = p.
Proof.
  rewrite firstn_app, Nat.sub_diag, firstn_all. simpl. apply app_nil_r.
Qed.

Lemma incr_last_snoc (p : list byte) (x : byte) :
  incr_last (p ++ [x]) = p ++ [byte_incr x].
Proof.
  unfold incr_last. destruct (p ++ [x]) eqn:E.
  - now destruct p.
  - rewrite <- E. now rewrite removelast_last, last_last.
Qed.

Lemma firstn_succ_prefix (p : list byte) (x : byte) (rest : list byte) :
  firstn (length p + 1) (p ++ x :: rest) = p ++ [x].
Proof.
  rewrite firstn_app.
  replace (length p + 1 - length p) with 1 by lia.
  rewrite firstn_all2 by lia. reflexivity.
Qed.

Lemma FindShortestSeparator_outcome (start limit : std_string) :
  separator_outcome start limit.
Proof.
  destruct (common_prefix_split start limit)
    as [p b' Ha Hb Hk | p x a' Ha Hb Hk | p x y a' b' Ha Hb Hne Hk].
  - apply separator_unchanged.
    + rewrite Hk, Ha. lia.
    + unfold FindShortestSeparator. cbn zeta. rewrite Hk.
      replace (length p <? length start) with false
        by (symmetry; apply Nat.ltb_ge; rewrite Ha; lia).
      reflexivity.
  - apply separator_unchanged.
    + rewrite Hk, Hb. lia.
    + unfold FindShortestSeparator. cbn zeta. rewrite Hk.
      replace (length p <? length limit) with false
        by (symmetry; apply Nat.ltb_ge; rewrite Hb; lia).
      now rewrite andb_false_r.
  - assert (Hx : nth (length p) start x00 = x)
      by (rewrite Ha; apply nth_middle_byte).
    assert (Hy : nth (length p) limit x00 = y)
      by (rewrite Hb; apply nth_middle_byte).
    assert (Hla : length p < length start)
      by (rewrite Ha, length_app; simpl; lia).
    assert (Hlb : length p < length limit)
      by (rewrite Hb, length_app; simpl; lia).
    destruct ((uchar x <? 255)%Z && (uchar x <? uchar y)%Z) eqn:Htest.
    + apply andb_true_iff in Htest. destruct Htest as [H1 H2].
      apply Z.ltb_lt in H1, H2.
      apply separator_shortened with (p := p) (x := x) (y := y)
                                     (a' := a') (b' := b'); try assumption.
      unfold FindShortestSeparator. cbn zeta. rewrite Hk, Hx, Hy.
      apply Nat.ltb_lt in Hla, Hlb. rewrite Hla, Hlb. simpl.
      apply Z.ltb_lt in H1, H2. rewrite H1, H2. simpl.
      rewrite Ha, firstn_succ_prefix. apply incr_last_snoc.
    + apply separator_unchanged.
      * rewrite Hk, Hx, Hy. intros (_ & _ & H1 & H2).
        apply Z.ltb_lt in H1, H2. rewrite H1, H2 in Htest. discriminate.
      * unfold FindShortestSeparator. cbn zeta. rewrite Hk, Hx, Hy, Htest.
        apply Nat.ltb_lt in Hla, Hlb. now rewrite Hla, Hlb.
Qed.

Lemma compare_bytes_bumped_l (x : byte) (a' : list byte) :
  (uchar x < 255)%Z -> compare_bytes (x :: a') [byte_incr x] = (-1)%Z.
Proof.
  intros Hx. pose proof (uchar_byte_incr x Hx) as Hi. simpl.
  byte_cases_num x (byte_incr x); [rewrite <- E in Hi; lia | lia].
Qed.


(** When [limit] is the common prefix followed by the successor of the
    next byte of [start], the test of [FindShortestSeparator] passes. *)
Lemma limit_is_bumped_prefix (start limit : std_string) :
  (Compare start limit < 0)%Z ->
  common_prefix_length start limit < length start ->
  limit = firstn (common_prefix_length start limit) start
          ++ [byte_incr (nth (common_prefix_length start limit) start x00)] ->
  common_prefix_length start limit < length limit
  /\ (uchar (nth (common_prefix_length start limit) start x00) < 255)%Z
  /\ (uchar (nth (common_prefix_length start limit) start x00)
      < uchar (nth (common_prefix_length start limit) limit x00))%Z.
Proof.
  rewrite Compare_bytes. intros Hlt Hk Hlimit.
  destruct (common_prefix_split start limit)
    as [p b' Ha Hb Hp | p x a' Ha Hb Hp | p x y a' b' Ha Hb Hne Hp];
    rewrite Hp in *.
  - rewrite Ha in Hk. lia.
  - apply (f_equal (@length byte)) in Hlimit.
    rewrite length_app, firstn_length_le in Hlimit by lia.
    rewrite Hb in Hlimit. simpl in Hlimit. lia.
  - assert (Hx : nth (length p) start x00 = x)
      by (rewrite Ha; apply nth_middle_byte).
    assert (Hy : nth (length p) limit x00 = y)
      by (rewrite Hb; apply nth_middle_byte).
    rewrite Hx, Hy. rewrite Ha, Hb, compare_bytes_app_l in Hlt.
    simpl in Hlt. apply byte_eqb_neq in Hne. rewrite Hne in Hlt.
    pose proof (uchar_range y). repeat split; try lia.
    rewrite Hb, length_app. simpl. lia.
Qed.

(** On the algorithm as worded, the separator can reach [limit] itself:
    it does so exactly when [limit] is the common prefix followed by the
    single byte that is one above the next byte of [start]. *)
Lemma FindShortestSeparator_equals_limit_iff (start limit : std_string) :
  (Compare start limit < 0)%Z ->
  (FindShortestSeparator start limit = limit <->
   common_prefix_length start limit < length start
   /\ limit = firstn (common_prefix_length start limit) start
              ++ [byte_incr (nth (common_prefix_length start limit) start x00)]).
Proof.
  intros Hlt.
  destruct (FindShortestSeparator_outcome start limit)
    as [p x y a' b' Ha Hb Hne Hx Hxy Hk Hs | Hnot Hs]; rewrite Hs.
  - assert (Hfst : firstn (length p) start = p)
      by (rewrite Ha; apply firstn_prefix).
    assert (Hnth : nth (length p) start x00 = x)
      by (rewrite Ha; apply nth_middle_byte).
    rewrite Hk, Hfst, Hnth. split.
    + intros H. split; [|now symmetry].
      rewrite Ha, length_app. simpl. lia.
    + intros [_ H]. now symmetry.
  - split.
    + intros H. subst limit. rewrite Compare_bytes, compare_bytes_refl in Hlt. lia.
    + intros [Hk Hlimit]. exfalso. apply Hnot.
      split; [exact Hk|]. now apply limit_is_bumped_prefix.
Qed.



Lemma uchar_xff_iff (c : byte) : ~ (uchar c < 255)%Z <-> c = xff.
Proof.
  split.
  - intros H. apply uchar_inj. pose proof (uchar_range c).
    change (uchar xff) with 255%Z. lia.
  - intros ->. change (uchar xff) with 255%Z. lia.
Qed.

Lemma first_below_ff_found (pre : std_string) (c : byte) (rest : std_string) (i : nat) :
  Forall (fun b => b = xff) pre -> (uchar c < 255)%Z ->
  first_below_ff (pre ++ c :: rest) i = Some (i + length pre).
Proof.
  intros Hpre Hc. revert i. induction Hpre as [|b pre Hb Hpre IH]; intros i; simpl.
  - apply Z.ltb_lt in Hc. rewrite Hc. f_equal. lia.
  - subst b. change (uchar xff <? 255)%Z with false. cbv iota.
    rewrite IH. f_equal. lia.
Qed.

Lemma first_below_ff_none (key : std_string) (i : nat) :
  Forall (fun b => b = xff) key -> first_below_ff key i = None.
Proof.
  intros Hkey. revert i. induction Hkey as [|b key Hb Hkey IH]; intros i;
    [reflexivity|].
  subst b. simpl. change (uchar xff <? 255)%Z with false. apply IH.
Qed.

(** A key is all 0xff, or has a first byte below 0xff. *)
Lemma key_first_below_ff (key : std_string) :
  Forall (fun b => b = xff) key
  \/ exists pre c rest,
       key = pre ++ c :: rest /\ Forall (fun b => b = xff) pre
       /\ (uchar c < 255)%Z.
Proof.
  induction key as [|c key IH].
  - left. constructor.
  - destruct (Z_lt_dec (uchar c) 255) as [Hc|Hc].
    + right. exists [], c, key. repeat split; [constructor|assumption].
    + apply uchar_xff_iff in Hc. subst c.
      destruct IH as [Hall | (pre & c & rest & -> & Hpre & Hc)].
      * left. now constructor.
      * right. exists (xff :: pre), c, rest.
        repeat split; [now constructor|assumption].
Qed.

Lemma FindShortSuccessor_found (pre : std_string) (c : byte) (rest : std_string) :
  Forall (fun b => b = xff) pre -> (uchar c < 255)%Z ->
  FindShortSuccessor (pre ++ c :: rest) = pre ++ [byte_incr c].
Proof.
  intros Hpre Hc. unfold FindShortSuccessor.
  rewrite (first_below_ff_found pre c rest 0 Hpre Hc). simpl.
  rewrite firstn_succ_prefix. apply incr_last_snoc.
Qed.

Lemma FindShortSuccessor_all_ff (key : std_string) :
  Forall (fun b => b = xff) key -> FindShortSuccessor key = key.
Proof.
  intros Hkey. unfold FindShortSuccessor.
  now rewrite first_below_ff_none.
Qed.

(** C5.  [FindShortSuccessor] leaves a string [s >= key]: the key is cut
    after its first byte below 0xff and that byte is incremented ("hello"
    becomes "i"); an empty key and a key of 0xff bytes only are left
    unchanged. *)
Theorem FindShortSuccessor_bounds (key : std_string) :
  (Compare (FindShortSuccessor key) key >= 0)%Z
  /\ (forall (pre : std_string) (c : byte) (rest : std_string),
        key = pre ++ c :: rest ->
        Forall (fun b => b = xff) pre -> (uchar c < 255)%Z ->
        FindShortSuccessor key = pre ++ [byte_incr c]
        /\ uchar (byte_incr c) = (uchar c + 1)%Z)
  /\ (Forall (fun b => b = xff) key -> FindShortSuccessor key = key)
  /\ FindShortSuccessor (bytes_of "hello"%string) = bytes_of "i"%string
  /\ FindShortSuccessor [xff; xff] = [xff; xff]
  /\ FindShortSuccessor [] = [].
Proof.
  split; [|split; [|split; [|repeat split]]].
  - rewrite Compare_bytes.
    destruct (key_first_below_ff key)
      as [Hall | (pre & c & rest & -> & Hpre & Hc)].
    + rewrite FindShortSuccessor_all_ff, compare_bytes_refl by assumption. lia.
    + rewrite FindShortSuccessor_found by assumption.
      rewrite compare_bytes_app_l, compare_bytes_antisym.
      rewrite (compare_bytes_bumped_l c rest Hc). lia.
  - intros pre c rest -> Hpre Hc. split.
    + now apply FindShortSuccessor_found.
    + now apply uchar_byte_incr.
  - apply FindShortSuccessor_all_ff.
Qed.

(** ** Arena *)

Section ArenaProperties.

Variable operator_new : list ptr -> nat -> ptr.

Let AllocateFallback := ArenaOps.AllocateFallback operator_new.
Let Allocate := ArenaOps.Allocate operator_new.

Lemma kBlockSize_quarter : ArenaOps.kBlockSize / 4 = 1024.
Proof. vm_compute. reflexivity. Qed.

(** The fallback path always tracks one more block and never lowers the
    usage counter. *)
Lemma AllocateFallback_effect (a : Arena) (bytes : nat) :
  let a' := snd (AllocateFallback a bytes) in
  blocks_ a' = blocks_ a ++ [fst (AllocateFallback a bytes)]
  /\ ((1024 <= bytes /\ memory_usage_ a' = memory_usage_ a + bytes
       /\ alloc_bytes_remaining_ a' = alloc_bytes_remaining_ a
       /\ alloc_ptr_ a' = alloc_ptr_ a)
      \/ (bytes < 1024 /\ memory_usage_ a' = memory_usage_ a + 4096
          /\ alloc_bytes_remaining_ a' = 4096 - bytes)).
Proof.
  unfold AllocateFallback, ArenaOps.AllocateFallback.
  rewrite kBlockSize_quarter.
  destruct (1024 <=? bytes) eqn:Hq.
  - apply Nat.leb_le in Hq. cbn. split; [reflexivity|]. left. tauto.
  - apply Nat.leb_gt in Hq. cbn. split; [reflexivity|]. right. tauto.
Qed.

Lemma blocks_grow_neq (l : list ptr) (x : ptr) : l ++ [x] <> l.
Proof.
  intros H. apply (f_equal (@length ptr)) in H.
  rewrite length_app in H. simpl in H. lia.
Qed.

(** C6.  [Allocate(n)] requires [n > 0].  When the current block has at
    least [n] free bytes, equality included, it returns the current free
    pointer, advances it by exactly [n], lowers the remaining count by
    exactly [n] and allocates no block; it takes the fallback path
    exactly when [n] exceeds the remaining count. *)
Theorem Allocate_bump_or_fallback (a : Arena) (n : nat) :
  ArenaOps.Allocate operator_new a 0 = None
  /\ (0 < n -> n <= alloc_bytes_remaining_ a ->
      exists a',
        ArenaOps.Allocate operator_new a n = Some (alloc_ptr_ a, a')
        /\ alloc_ptr_ a' = alloc_ptr_ a + n
        /\ alloc_bytes_remaining_ a' + n = alloc_bytes_remaining_ a
        /\ blocks_ a' = blocks_ a
        /\ ArenaOps.MemoryUsage a' = ArenaOps.MemoryUsage a)
  /\ (0 < n -> alloc_bytes_remaining_ a < n ->
      ArenaOps.Allocate operator_new a n
      = Some (ArenaOps.AllocateFallback operator_new a n))
  /\ (forall (p : ptr) (a' : Arena),
        ArenaOps.Allocate operator_new a n = Some (p, a') ->
        (blocks_ a' = blocks_ a <-> n <= alloc_bytes_remaining_ a)).
Proof.
  split; [reflexivity|]. split; [|split].
  - intros Hpos Hfit. unfold ArenaOps.Allocate.
    replace (n =? 0) with false by (symmetry; apply Nat.eqb_neq; lia).
    apply Nat.leb_le in Hfit. rewrite Hfit. apply Nat.leb_le in Hfit.
    eexists. split; [reflexivity|]. cbn. repeat split. lia.
  - intros Hpos Hbig. unfold ArenaOps.Allocate.
    replace (n =? 0) with false by (symmetry; apply Nat.eqb_neq; lia).
    apply Nat.leb_gt in Hbig. now rewrite Hbig.
  - intros p a'. unfold ArenaOps.Allocate.
    destruct (n =? 0); [discriminate|].
    destruct (n <=? alloc_bytes_remaining_ a) eqn:Hfit.
    + apply Nat.leb_le in Hfit. intros H. injection H as _ <-. cbn. tauto.
    + apply Nat.leb_gt in Hfit. intros H. injection H as H.
      destruct (AllocateFallback_effect a n) as [Hblocks _].
      unfold AllocateFallback in Hblocks. rewrite H in Hblocks.
      cbn [fst snd] in Hblocks. rewrite Hblocks. split; [|lia].
      intros Habs. now apply blocks_grow_neq in Habs.
Qed.

Lemma Allocate_covers (a a' : Arena) (p : ptr) (n r : nat) :
  Allocate a n = Some (p, a') -> covers a r ->
  covers a' (r + n) /\ memory_usage_ a <= memory_usage_ a'.
Proof.
  unfold Allocate, ArenaOps.Allocate, covers.
  destruct (n =? 0); [discriminate|].
  destruct (n <=? alloc_bytes_remaining_ a) eqn:Hfit.
  - apply Nat.leb_le in Hfit. intros H. injection H as _ <-. cbn. lia.
  - intros H. injection H as H.
    destruct (AllocateFallback_effect a n) as [_ Heff].
    unfold AllocateFallback in Heff. rewrite H in Heff. cbn [fst snd] in Heff.
    intros Hcov. lia.
Qed.

Variable pointer_size : nat.

Let AllocateAligned := ArenaOps.AllocateAligned operator_new pointer_size.
Let step := ArenaOps.step operator_new pointer_size.
Let run := ArenaOps.run operator_new pointer_size.

Lemma AllocateAligned_covers (a a' : Arena) (p : ptr) (n r : nat) :
  AllocateAligned a n = Some (p, a') -> covers a r ->
  covers a' (r + n) /\ memory_usage_ a <= memory_usage_ a'.
Proof.
  unfold AllocateAligned, ArenaOps.AllocateAligned. cbn zeta.
  set (slop := if _ =? 0 then 0 else _).
  destruct (ArenaOps.Allocate operator_new a (n + slop))
    as [[q a'']|] eqn:Halloc; [|discriminate].
  intros H. injection H as _ <-. intros Hcov.
  destruct (Allocate_covers a a'' q (n + slop) r Halloc Hcov) as [Hc Hm].
  unfold covers in *. lia.
Qed.

Lemma step_covers (a a' : Arena) (p : ptr) (c : Call) (r : nat) :
  step a c = Some (p, a') -> covers a r ->
  covers a' (r + requested c) /\ memory_usage_ a <= memory_usage_ a'.
Proof.
  destruct c as [n|n]; simpl.
  - apply Allocate_covers.
  - apply AllocateAligned_covers.
Qed.

Lemma run_covers (cs : list Call) (a a' : Arena) (r : nat) :
  run a cs = Some a' -> covers a r ->
  covers a' (r + total_requested cs) /\ memory_usage_ a <= memory_usage_ a'.
Proof.
  revert a r. induction cs as [|c cs IH]; intros a r Hrun Hcov.
  - injection Hrun as <-. simpl. rewrite Nat.add_0_r. split; [assumption|lia].
  - unfold run in Hrun. simpl in Hrun. fold run in Hrun.
    destruct (ArenaOps.step operator_new pointer_size a c)
      as [[p a1]|] eqn:Hstep; [|discriminate].
    destruct (step_covers a a1 p c r Hstep Hcov) as [Hc1 Hm1].
    destruct (IH a1 (r + requested c) Hrun Hc1) as [Hc2 Hm2].
    simpl. rewrite Nat.add_assoc. split; [assumption|lia].
Qed.

(** A call fails only on an assertion: every call for at least one byte
    returns. *)
Lemma step_returns (a : Arena) (c : Call) :
  0 < requested c -> exists p a', step a c = Some (p, a').
Proof.
  assert (Halloc : forall n, 0 < n -> exists p a', Allocate a n = Some (p, a')).
  { intros n Hn. unfold Allocate, ArenaOps.Allocate.
    replace (n =? 0) with false by (symmetry; apply Nat.eqb_neq; lia).
    destruct (n <=? alloc_bytes_remaining_ a).
    - eexists. eexists. reflexivity.
    - destruct (ArenaOps.AllocateFallback operator_new a n) as [p a'].
      now exists p, a'. }
  destruct c as [n|n]; simpl; intros Hn.
  - now apply Halloc.
  - unfold AllocateAligned, ArenaOps.AllocateAligned. cbn zeta.
    set (slop := if _ =? 0 then 0 else _).
    destruct (Halloc (n + slop)) as (p & a' & H); [lia|].
    unfold Allocate in H. rewrite H. eexists. eexists. reflexivity.
Qed.

Lemma run_returns (cs : list Call) (a : Arena) :
  Forall (fun c => 0 < requested c) cs -> exists a', run a cs = Some a'.
Proof.
  intros Hcs. revert a. induction Hcs as [|c cs Hc Hcs IH]; intros a.
  - now exists a.
  - destruct (step_returns a c Hc) as (p & a1 & Hstep).
    destruct (IH a1) as [a' Hrun]. exists a'.
    unfold run. simpl. unfold step in Hstep. now rewrite Hstep.
Qed.

(** C7.  Along any sequence of [Allocate] and [AllocateAligned] calls on
    one arena, [MemoryUsage()] never decreases, and after every call it
    is at least the sum of the byte counts requested so far.  The calls
    [cs1] lead from the new arena to [a1]; the calls [cs2] continue from
    there. *)
Theorem MemoryUsage_monotone_covers_requests
    (cs1 cs2 : list Call) (a1 a2 : Arena) :
  ArenaOps.run operator_new pointer_size ArenaOps.new_arena cs1 = Some a1 ->
  ArenaOps.run operator_new pointer_size a1 cs2 = Some a2 ->
  total_requested cs1 <= ArenaOps.MemoryUsage a1
  /\ ArenaOps.MemoryUsage a1 <= ArenaOps.MemoryUsage a2.
Proof.
  intros H1 H2. unfold ArenaOps.MemoryUsage.
  assert (H0 : covers ArenaOps.new_arena 0) by (unfold covers; simpl; lia).
  destruct (run_covers cs1 ArenaOps.new_arena a1 0 H1 H0) as [Hc1 _].
  destruct (run_covers cs2 a1 a2 _ H2 Hc1) as [_ Hm].
  unfold covers in Hc1. simpl in Hc1. split; [lia|exact Hm].
Qed.

End ArenaProperties.

(** ** The properties on concrete inputs *)

(** "abc" against "abd": the first two bytes agree, the third decides. *)
Lemma compare_three_way_witness :
  let m := memory_of (bytes_of "abcabd"%string) in
  let a := mkSlice 0 3 in
  let b := mkSlice 3 3 in
  2 < Nat.min (size_ a) (size_ b)
  /\ bytes_at m (data_ a) 2 = bytes_at m (data_ b) 2
  /\ m (data_ a + 2) <> m (data_ b + 2)
  /\ (SliceOps.compare memcmp m a b ?= 0)%Z = Lt.
Proof.
  cbv zeta.
  assert (H1 : 2 < Nat.min (size_ (mkSlice 0 3)) (size_ (mkSlice 3 3)))
    by (simpl; lia).
  assert (H2 : bytes_at (memory_of (bytes_of "abcabd"%string)) (data_ (mkSlice 0 3)) 2
               = bytes_at (memory_of (bytes_of "abcabd"%string)) (data_ (mkSlice 3 3)) 2)
    by reflexivity.
  assert (H3 : memory_of (bytes_of "abcabd"%string) (data_ (mkSlice 0 3) + 2)
               <> memory_of (bytes_of "abcabd"%string) (data_ (mkSlice 3 3) + 2))
    by (vm_compute; discriminate).
  exact (conj H1 (conj H2 (conj H3
    (eq_trans (proj2 (proj2 (compare_three_way _ _ _)) 2 H1 H2 H3) eq_refl)))).
Defined.

(** The two occurrences of "ab" in "abab" are equal slices at different
    addresses. *)
Lemma compare_zero_iff_equal_witness :
  let m := memory_of (bytes_of "abab"%string) in
  let a := mkSlice 0 2 in
  let b := mkSlice 2 2 in
  (size_ a = size_ b
   /\ forall i : nat, i < size_ a -> m (data_ a + i) = m (data_ b + i))
  /\ SliceOps.compare memcmp m a b = 0%Z.
Proof.
  cbv zeta.
  assert (H : size_ (mkSlice 0 2) = size_ (mkSlice 2 2)
              /\ forall i : nat, i < size_ (mkSlice 0 2) ->
                   memory_of (bytes_of "abab"%string) (data_ (mkSlice 0 2) + i)
                   = memory_of (bytes_of "abab"%string) (data_ (mkSlice 2 2) + i)).
  { split; [reflexivity|]. intros [|[|i]] Hi; [reflexivity|reflexivity|].
    simpl in Hi. lia. }
  exact (conj H (proj2 (proj1 (compare_zero_iff_equal _ _ _)) H)).
Defined.


(** "he" is a prefix of "hello". *)
Lemma starts_with_iff_prefix_witness :
  let m := memory_of (bytes_of "hellohe"%string) in
  let v := mkSlice 0 5 in
  let x := mkSlice 5 2 in
  (size_ x <= size_ v /\ firstn (size_ x) (view m v) = view m x)
  /\ SliceOps.starts_with memcmp m v x = true.
Proof.
  cbv zeta.
  assert (H : size_ (mkSlice 5 2) <= size_ (mkSlice 0 5)
              /\ firstn (size_ (mkSlice 5 2))
                   (view (memory_of (bytes_of "hellohe"%string)) (mkSlice 0 5))
                 = view (memory_of (bytes_of "hellohe"%string)) (mkSlice 5 2))
    by (split; [simpl; lia|reflexivity]).
  exact (conj H (proj2 (proj1 (starts_with_iff_prefix _ _ _)) H)).
Defined.


(** A key that starts with 0xff is cut after its second byte. *)
Lemma FindShortSuccessor_bounds_witness :
  Forall (fun b => b = xff) [xff] /\ (uchar x61 < 255)%Z
  /\ FindShortSuccessor ([xff] ++ x61 :: [x62; x63]) = [xff] ++ [byte_incr x61].
Proof.
  assert (H1 : Forall (fun b => b = xff) [xff]) by (constructor; [reflexivity|constructor]).
  assert (H2 : (uchar x61 < 255)%Z) by reflexivity.
  exact (conj H1 (conj H2
    (proj1 (proj1 (proj2 (FindShortSuccessor_bounds _)) [xff] x61 [x62; x63]
                  eq_refl H1 H2)))).
Defined.

(** A request for exactly the bytes that remain is served from the
    current block. *)
Lemma Allocate_bump_or_fallback_witness :
  let new_ := fun (blocks : list ptr) (_ : nat) => 8 * S (length blocks) in
  let a := mkArena 100 50 [64] 4096 in
  0 < 50 /\ 50 <= alloc_bytes_remaining_ a
  /\ exists a',
       ArenaOps.Allocate new_ a 50 = Some (alloc_ptr_ a, a')
       /\ alloc_ptr_ a' = alloc_ptr_ a + 50
       /\ alloc_bytes_remaining_ a' + 50 = alloc_bytes_remaining_ a
       /\ blocks_ a' = blocks_ a
       /\ ArenaOps.MemoryUsage a' = ArenaOps.MemoryUsage a.
Proof.
  cbv zeta.
  assert (H1 : 0 < 50) by lia.
  assert (H2 : 50 <= alloc_bytes_remaining_ (mkArena 100 50 [64] 4096))
    by (simpl; lia).
  exact (conj H1 (conj H2
    (proj1 (proj2 (Allocate_bump_or_fallback _ _ 50)) H1 H2))).
Defined.

(** Two small requests share the first standard block; a request of 4080
    bytes no longer fits there and gets a block of its own. *)
Lemma MemoryUsage_monotone_covers_requests_witness :
  let new_ := fun (blocks : list ptr) (_ : nat) => 8 * S (length blocks) in
  let a1 := mkArena 29 4075 [8] 4096 in
  let a2 := mkArena 29 4075 [8; 16] (4096 + 4080) in
  ArenaOps.run new_ 8 ArenaOps.new_arena [CallAllocate 10; CallAllocateAligned 5]
    = Some a1
  /\ ArenaOps.run new_ 8 a1 [CallAllocate 4080] = Some a2
  /\ total_requested [CallAllocate 10; CallAllocateAligned 5]
     <= ArenaOps.MemoryUsage a1
  /\ ArenaOps.MemoryUsage a1 <= ArenaOps.MemoryUsage a2.
Proof.
  cbv zeta.
  assert (H1 : ArenaOps.run (fun (blocks : list ptr) (_ : nat) => 8 * S (length blocks))
                 8 ArenaOps.new_arena [CallAllocate 10; CallAllocateAligned 5]
               = Some (mkArena 29 4075 [8] 4096))
    by (vm_compute; reflexivity).
  assert (H2 : ArenaOps.run (fun (blocks : list ptr) (_ : nat) => 8 * S (length blocks))
                 8 (mkArena 29 4075 [8] 4096) [CallAllocate 4080]
               = Some (mkArena 29 4075 [8; 16] (4096 + 4080)))
    by (vm_compute; reflexivity).
  exact (conj H1 (conj H2
    (MemoryUsage_monotone_covers_requests _ _ _ _ _ _ H1 H2))).
Defined.

(* ================================================================= *)
(** * Part III: further properties of slice.h and arena.h *)
(* ================================================================= *)

(** ** Narrowing and indexing a slice *)

Lemma bytes_at_skipn m p k n :
  n <= k -> skipn n (bytes_at m p k) = bytes_at m (p + n) (k - n).
Proof.
  intros Hn. replace k with (n + (k - n)) at 1 by lia.
  rewrite bytes_at_app, skipn_app, bytes_at_length, Nat.sub_diag.
  rewrite skipn_all2 by (rewrite bytes_at_length; lia). reflexivity.
Qed.

Lemma bytes_at_nth_error m p k n :
  nth_error (bytes_at m p k) n = if n <? k then Some (m (p + n)) else None.
Proof.
  destruct (n <? k) eqn:Hn.
  - apply Nat.ltb_lt in Hn.
    rewrite (nth_error_nth' _ x00) by (rewrite bytes_at_length; lia).
    now rewrite bytes_at_nth.
  - apply Nat.ltb_ge in Hn. apply nth_error_None.
    now rewrite bytes_at_length.
Qed.

(** X1.  [remove_prefix(n)] passes its assertion exactly when
    [n <= size()]; the slice then refers to the bytes it referred to
    before without the first [n], and its size is lower by [n]. *)
Theorem remove_prefix_drops (m : Memory) (s : Slice) (n : nat) :
  option_map (SliceOps.ToString m) (SliceOps.remove_prefix s n)
  = (if n <=? SliceOps.size s
     then Some (skipn n (SliceOps.ToString m s)) else None)
  /\ option_map SliceOps.size (SliceOps.remove_prefix s n)
     = (if n <=? SliceOps.size s then Some (SliceOps.size s - n) else None).
Proof.
  unfold SliceOps.remove_prefix, SliceOps.ToString, SliceOps.size, view.
  destruct (n <=? size_ s) eqn:Hn; [|now split].
  apply Nat.leb_le in Hn. simpl. split; [|reflexivity].
  now rewrite bytes_at_skipn.
Qed.

(** X2.  Two [remove_prefix] calls in a row are one call for the sum:
    the same slice results, and the pair fails an assertion exactly when
    the single call does. *)
Theorem remove_prefix_twice (s : Slice) (n k : nat) :
  match SliceOps.remove_prefix s n with
  | Some s' => SliceOps.remove_prefix s' k
  | None => None
  end = SliceOps.remove_prefix s (n + k).
Proof.
  unfold SliceOps.remove_prefix, SliceOps.size.
  destruct (n <=? size_ s) eqn:Hn.
  - apply Nat.leb_le in Hn. simpl.
    destruct (k <=? size_ s - n) eqn:Hk.
    + apply Nat.leb_le in Hk.
      replace (n + k <=? size_ s) with true
        by (symmetry; apply Nat.leb_le; lia).
      f_equal. f_equal; lia.
    + apply Nat.leb_gt in Hk.
      replace (n + k <=? size_ s) with false
        by (symmetry; apply Nat.leb_gt; lia).
      reflexivity.
  - apply Nat.leb_gt in Hn.
    replace (n + k <=? size_ s) with false
      by (symmetry; apply Nat.leb_gt; lia).
    reflexivity.
Qed.

(** X3.  [operator[]] is the lookup in the bytes [ToString] copies: for
    [n < size()] it returns the [n]-th of them, and for any other [n] its
    assertion fails, which is where that sequence has no [n]-th byte. *)
Theorem at_is_lookup (m : Memory) (s : Slice) (n : nat) :
  SliceOps.at_ m s n = nth_error (SliceOps.ToString m s) n.
Proof.
  unfold SliceOps.at_, SliceOps.ToString, SliceOps.size, view.
  now rewrite bytes_at_nth_error.
Qed.

(** What [starts_with] leaves for [remove_prefix]. *)
Lemma starts_with_split (m : Memory) (v x : Slice) :
  SliceOps.starts_with memcmp m v x = true ->
  SliceOps.remove_prefix v (SliceOps.size x)
  = Some (mkSlice (data_ v + size_ x) (size_ v - size_ x))
  /\ view m v = view m x ++ view m (mkSlice (data_ v + size_ x) (size_ v - size_ x)).
Proof.
  intros H. apply starts_with_true_iff in H. destruct H as [Hle Hpre].
  unfold SliceOps.remove_prefix, SliceOps.size.
  apply Nat.leb_le in Hle. rewrite Hle. apply Nat.leb_le in Hle.
  split; [reflexivity|].
  rewrite <- Hpre. unfold view at 3. simpl.
  rewrite <- (bytes_at_skipn m (data_ v) (size_ v) (size_ x) Hle).
  symmetry. apply firstn_skipn.
Qed.

(** X4.  When [v.starts_with(x)], [v.remove_prefix(x.size())] passes its
    assertion and leaves the rest of [v]: the bytes of [v] are the bytes
    of [x] followed by the bytes of the narrowed slice. *)
Theorem starts_with_then_remove_prefix (m : Memory) (v x : Slice) :
  SliceOps.starts_with memcmp m v x = true ->
  exists rest : Slice,
    SliceOps.remove_prefix v (SliceOps.size x) = Some rest
    /\ SliceOps.ToString m v = SliceOps.ToString m x ++ SliceOps.ToString m rest.
Proof.
  intros H. destruct (starts_with_split m v x H) as [Hrm Hview].
  eexists. split; [exact Hrm|exact Hview].
Qed.

Lemma starts_with_then_remove_prefix_witness :
  let m := memory_of (bytes_of "hellohe"%string) in
  let v := mkSlice 0 5 in
  let x := mkSlice 5 2 in
  SliceOps.starts_with memcmp m v x = true
  /\ exists rest : Slice,
       SliceOps.remove_prefix v (SliceOps.size x) = Some rest
       /\ SliceOps.ToString m v
          = SliceOps.ToString m x ++ SliceOps.ToString m rest.
Proof.
  cbv zeta.
  assert (H : SliceOps.starts_with memcmp (memory_of (bytes_of "hellohe"%string))
                (mkSlice 0 5) (mkSlice 5 2) = true) by reflexivity.
  exact (conj H (starts_with_then_remove_prefix _ _ _ H)).
Defined.



(** ** Equality, prefixes and empty slices *)

(** X6.  [operator==] is an equivalence on slices: reflexive, symmetric
    (though it passes only the size of its left argument to [memcmp]) and
    transitive; [operator!=] holds exactly when [compare] is not zero. *)
Theorem eq_is_equivalence (m : Memory) (x y z : Slice) :
  SliceOps.eq memcmp m x x = true
  /\ SliceOps.eq memcmp m x y = SliceOps.eq memcmp m y x
  /\ (SliceOps.eq memcmp m x y = true -> SliceOps.eq memcmp m y z = true ->
      SliceOps.eq memcmp m x z = true)
  /\ (SliceOps.ne memcmp m x y = true <-> SliceOps.compare memcmp m x y <> 0%Z).
Proof.
  split; [|split; [|split]].
  - now apply eq_true_iff_view.
  - apply Bool.eq_iff_eq_true. rewrite !eq_true_iff_view. split; congruence.
  - rewrite !eq_true_iff_view. congruence.
  - unfold SliceOps.ne. rewrite negb_true_iff, <- not_true_iff_false.
    now rewrite eq_true_iff_view, compare_zero_iff_view.
Qed.

Lemma eq_is_equivalence_witness :
  let m := memory_of (bytes_of "ababab"%string) in
  let x := mkSlice 0 2 in
  let y := mkSlice 2 2 in
  let z := mkSlice 4 2 in
  SliceOps.eq memcmp m x y = true /\ SliceOps.eq memcmp m y z = true
  /\ SliceOps.eq memcmp m x z = true.
Proof.
  cbv zeta.
  assert (H1 : SliceOps.eq memcmp (memory_of (bytes_of "ababab"%string))
                 (mkSlice 0 2) (mkSlice 2 2) = true) by reflexivity.
  assert (H2 : SliceOps.eq memcmp (memory_of (bytes_of "ababab"%string))
                 (mkSlice 2 2) (mkSlice 4 2) = true) by reflexivity.
  exact (conj H1 (conj H2
    (proj1 (proj2 (proj2 (eq_is_equivalence _ _ _ (mkSlice 4 2)))) H1 H2))).
Defined.

Lemma is_prefix_trans (x y z : list byte) :
  Spec.is_prefix x y -> Spec.is_prefix y z -> Spec.is_prefix x z.
Proof.
  intros [r1 ->] [r2 ->]. exists (r1 ++ r2). now rewrite app_assoc.
Qed.

Lemma is_prefix_antisym (x y : list byte) :
  Spec.is_prefix x y -> Spec.is_prefix y x -> x = y.
Proof.
  intros [r1 H1] [r2 H2]. rewrite H1 in H2.
  apply (f_equal (@length byte)) in H2. rewrite !length_app in H2.
  destruct r1 as [|b r1]; [|simpl in H2; lia].
  now rewrite app_nil_r in H1.
Qed.

(** X7.  [starts_with] orders slices by prefix: every slice starts with
    itself; if [v] starts with [x] and [x] with [y], then [v] starts with
    [y]; and two slices that start with each other are [==]. *)
Theorem starts_with_is_order (m : Memory) (v x y : Slice) :
  SliceOps.starts_with memcmp m v v = true
  /\ (SliceOps.starts_with memcmp m v x = true ->
      SliceOps.starts_with memcmp m x y = true ->
      SliceOps.starts_with memcmp m v y = true)
  /\ (SliceOps.starts_with memcmp m v x = true ->
      SliceOps.starts_with memcmp m x v = true ->
      SliceOps.eq memcmp m v x = true).
Proof.
  rewrite !starts_with_is_prefix, eq_true_iff_view. split; [|split].
  - exists []. now rewrite app_nil_r.
  - intros Hvx Hxy. now apply is_prefix_trans with (view m x).
  - intros Hvx Hxv. now apply is_prefix_antisym.
Qed.

Lemma starts_with_is_order_witness :
  let m := memory_of (bytes_of "abcaba"%string) in
  let v := mkSlice 0 3 in
  let x := mkSlice 3 2 in
  let y := mkSlice 5 1 in
  SliceOps.starts_with memcmp m v x = true
  /\ SliceOps.starts_with memcmp m x y = true
  /\ SliceOps.starts_with memcmp m v y = true.
Proof.
  cbv zeta.
  assert (H1 : SliceOps.starts_with memcmp (memory_of (bytes_of "abcaba"%string))
                 (mkSlice 0 3) (mkSlice 3 2) = true) by reflexivity.
  assert (H2 : SliceOps.starts_with memcmp (memory_of (bytes_of "abcaba"%string))
                 (mkSlice 3 2) (mkSlice 5 1) = true) by reflexivity.
  exact (conj H1 (conj H2
    (proj1 (proj2 (starts_with_is_order _ _ _ (mkSlice 5 1))) H1 H2))).
Defined.

(** X8.  A slice that was cleared is empty and [==] to the default slice
    [Slice()], wherever the two literals [""] are stored; [ToString]
    gives no byte; it compares below every non-empty slice and equal to
    every empty one; and every slice starts with it. *)
Theorem clear_gives_least_slice
    (m : Memory) (empty_literal empty_literal' : ptr) (s b : Slice) :
  SliceOps.eq memcmp m (SliceOps.clear empty_literal s)
                       (SliceOps.empty_slice empty_literal') = true
  /\ SliceOps.empty (SliceOps.clear empty_literal s) = true
  /\ SliceOps.ToString m (SliceOps.clear empty_literal s) = []
  /\ SliceOps.compare memcmp m (SliceOps.clear empty_literal s) b
     = (if SliceOps.empty b then 0 else -1)%Z
  /\ SliceOps.compare memcmp m b (SliceOps.clear empty_literal s)
     = (if SliceOps.empty b then 0 else 1)%Z
  /\ SliceOps.eq memcmp m (SliceOps.clear empty_literal s) b = SliceOps.empty b
  /\ SliceOps.starts_with memcmp m b (SliceOps.clear empty_literal s) = true.
Proof.
  unfold SliceOps.clear, SliceOps.empty_slice, SliceOps.empty,
    SliceOps.ToString, SliceOps.compare, SliceOps.eq, SliceOps.starts_with,
    SliceOps.size, SliceOps.data, view.
  destruct b as [d [|n]]; cbn; repeat split; reflexivity.
Qed.

(** ** The C-string constructor *)

(** What [strlen] has seen when it returns. *)
Lemma strlen_sound (fuel : nat) (m : Memory) (s : ptr) (n : nat) :
  strlen fuel m s = Some n ->
  n < fuel /\ m (s + n) = x00 /\ forall i, i < n -> m (s + i) <> x00.
Proof.
  revert s n. induction fuel as [|fuel IH]; intros s n H; [discriminate|].
  simpl in H. destruct (Byte.eqb (m s) x00) eqn:E.
  - injection H as <-. apply byte_eqb_eq in E. rewrite Nat.add_0_r.
    split; [lia|]. split; [assumption|]. intros i Hi. lia.
  - apply byte_eqb_neq in E.
    destruct (strlen fuel m (S s)) as [n'|] eqn:Hrec; [|discriminate].
    injection H as <-. destruct (IH (S s) n' Hrec) as (Hlt & Hnul & Hpre).
    split; [lia|]. split.
    + now rewrite <- Nat.add_succ_comm.
    + intros [|i] Hi.
      * now rewrite Nat.add_0_r.
      * rewrite <- Nat.add_succ_comm. apply Hpre. lia.
Qed.

(** X9.  Whenever [Slice(const char* s)] returns, the slice starts at
    [s], holds no NUL byte and is followed by one; scanning further than
    was needed gives the same slice. *)
Theorem from_cstr_has_no_nul (m : Memory) (s : ptr) (fuel : nat) (sl : Slice) :
  SliceOps.from_cstr fuel m s = Some sl ->
  SliceOps.data sl = s
  /\ ~ In x00 (SliceOps.ToString m sl)
  /\ m (s + SliceOps.size sl) = x00
  /\ (forall fuel' : nat, fuel <= fuel' ->
      SliceOps.from_cstr fuel' m s = Some sl).
Proof.
  unfold SliceOps.from_cstr.
  destruct (strlen fuel m s) as [n|] eqn:Hs; [|discriminate].
  intros H. injection H as <-.
  destruct (strlen_sound fuel m s n Hs) as (Hlt & Hnul & Hpre).
  unfold SliceOps.data, SliceOps.size, SliceOps.ToString, view. simpl.
  split; [reflexivity|]. split; [|split; [assumption|]].
  - intros Hin. unfold bytes_at in Hin. apply in_map_iff in Hin.
    destruct Hin as (q & Hq & Hrange). apply in_seq in Hrange.
    apply (Hpre (q - s)); [lia|].
    now replace (s + (q - s)) with q by lia.
  - intros fuel' Hfuel.
    now rewrite (strlen_first_nul m s n fuel' Hpre Hnul) by lia.
Qed.

Lemma from_cstr_has_no_nul_witness :
  let m := memory_of [x61; x62; x00; x63; x00] in
  SliceOps.from_cstr 8 m 0 = Some (mkSlice 0 2)
  /\ ~ In x00 (SliceOps.ToString m (mkSlice 0 2))
  /\ m (0 + SliceOps.size (mkSlice 0 2)) = x00.
Proof.
  cbv zeta.
  assert (H : SliceOps.from_cstr 8 (memory_of [x61; x62; x00; x63; x00]) 0
              = Some (mkSlice 0 2)) by reflexivity.
  pose proof (from_cstr_has_no_nul _ _ _ _ H) as (_ & H1 & H2 & _).
  exact (conj H (conj H1 H2)).
Defined.

(** ** The magnitude of [memcmp] *)

(** X10.  Linked against any [memcmp] that has the sign the C standard
    prescribes, [Slice::compare] has the sign it has with the reference
    [memcmp], and [starts_with], [operator==] and [operator!=] return the
    same booleans: none of them depends on the magnitude [memcmp]
    returns. *)
Theorem slice_ops_use_sign_of_memcmp
    (f : Memory -> ptr -> ptr -> nat -> Z) (m : Memory) (a b : Slice) :
  memcmp_conforming f ->
  Z.sgn (SliceOps.compare f m a b) = Z.sgn (SliceOps.compare memcmp m a b)
  /\ SliceOps.starts_with f m a b = SliceOps.starts_with memcmp m a b
  /\ SliceOps.eq f m a b = SliceOps.eq memcmp m a b
  /\ SliceOps.ne f m a b = SliceOps.ne memcmp m a b.
Proof.
  intros Hf. split; [|split; [|split]].
  - now apply compare_conforming.
  - now apply starts_with_conforming.
  - now apply eq_conforming.
  - unfold SliceOps.ne. now rewrite (eq_conforming f Hf).
Qed.

(** A [memcmp] that returns -1, 0 or 1. *)
Lemma slice_ops_use_sign_of_memcmp_witness :
  let f := fun (m : Memory) (p q : ptr) (n : nat) => Z.sgn (memcmp m p q n) in
  let m := memory_of (bytes_of "adaz"%string) in
  memcmp_conforming f
  /\ SliceOps.compare f m (mkSlice 0 2) (mkSlice 2 2) = (-1)%Z
  /\ SliceOps.compare memcmp m (mkSlice 0 2) (mkSlice 2 2) = (-22)%Z
  /\ Z.sgn (SliceOps.compare f m (mkSlice 0 2) (mkSlice 2 2))
     = Z.sgn (SliceOps.compare memcmp m (mkSlice 0 2) (mkSlice 2 2)).
Proof.
  cbv zeta.
  assert (Hf : memcmp_conforming
                 (fun (m : Memory) (p q : ptr) (n : nat) => Z.sgn (memcmp m p q n)))
    by (intros m p q n; apply Z.sgn_sgn).
  exact (conj Hf (conj eq_refl (conj eq_refl
    (proj1 (slice_ops_use_sign_of_memcmp _
              (memory_of (bytes_of "adaz"%string)) (mkSlice 0 2) (mkSlice 2 2) Hf))))).
Defined.

(** ** Runs of [Allocate] inside one block *)

Lemma list_sum_cons (n : nat) (l : list nat) : list_sum (n :: l) = n + list_sum l.
Proof. reflexivity. Qed.

(** X11.  As long as the requests are positive and together fit in what
    remains of the current block, [Allocate] serves them back to back:
    each returned range starts where the previous one ends, the first at
    the free pointer; the free pointer advances and the remaining count
    drops by the total; no block is allocated and the usage counter does
    not move. *)
Theorem Allocate_each_packs
    (operator_new : list ptr -> nat -> ptr) (a : Arena) (sizes : list nat) :
  Forall (fun bytes => 0 < bytes) sizes ->
  list_sum sizes <= alloc_bytes_remaining_ a ->
  Allocate_each operator_new a sizes
  = Some (packed_from (alloc_ptr_ a) sizes,
          mkArena (alloc_ptr_ a + list_sum sizes)
                  (alloc_bytes_remaining_ a - list_sum sizes)
                  (blocks_ a) (memory_usage_ a)).
Proof.
  intros Hpos. revert a. induction Hpos as [|n sizes Hn Hpos IH]; intros a Hfit.
  - destruct a as [p r bl u]. cbn [Allocate_each packed_from list_sum fold_right
      alloc_ptr_ alloc_bytes_remaining_ blocks_ memory_usage_].
    now rewrite Nat.add_0_r, Nat.sub_0_r.
  - rewrite list_sum_cons in *.
    cbn [Allocate_each packed_from]. unfold ArenaOps.Allocate.
    replace (n =? 0) with false by (symmetry; apply Nat.eqb_neq; lia).
    replace (n <=? alloc_bytes_remaining_ a) with true
      by (symmetry; apply Nat.leb_le; lia).
    cbv zeta. rewrite IH
      by (cbn [alloc_bytes_remaining_]; lia).
    cbn [alloc_ptr_ alloc_bytes_remaining_ blocks_ memory_usage_].
    f_equal. f_equal. f_equal; lia.
Qed.

(** Three requests that use up the 50 bytes left at address 100. *)
Lemma Allocate_each_packs_witness :
  let new_ := fun (blocks : list ptr) (_ : nat) => 8 * S (length blocks) in
  let a := mkArena 100 50 [64] 4096 in
  Forall (fun bytes => 0 < bytes) [10; 20; 20]
  /\ list_sum [10; 20; 20] <= alloc_bytes_remaining_ a
  /\ Allocate_each new_ a [10; 20; 20]
     = Some ([100; 110; 130], mkArena 150 0 [64] 4096).
Proof.
  cbv zeta.
  assert (H1 : Forall (fun bytes => 0 < bytes) [10; 20; 20])
    by (repeat constructor; lia).
  assert (H2 : list_sum [10; 20; 20]
               <= alloc_bytes_remaining_ (mkArena 100 50 [64] 4096))
    by (simpl; lia).
  exact (conj H1 (conj H2
    (eq_trans (Allocate_each_packs _ _ _ H1 H2) eq_refl))).
Defined.

(** ** Equal slices are interchangeable *)


